(** * Shallow embedding of [src/primitive_types.hpp] and [src/macros.hpp]

  The two headers are modelled the way they are written:

  - [primitive_types.hpp] is a table of alias declarations
    ([using u8 = std::uint8_t;] ...).  The table is [PrimitiveTypes.underlying];
    what [<cstdint>] and [<cstddef>] say about the named standard types is
    [PrimitiveTypes.format_of].
  - [macros.hpp] is a list of preprocessor directives, [Preprocessor.macros_hpp],
    run by a small preprocessor over a macro table ([gmap string Macro]);
    the body of the function-like macro [EXPECTED_VOID] is also given its
    run-time meaning, [Runtime.EXPECTED_VOID], in a monad of process
    outcomes.

  The facts come in the same order: the aliases and the values they hold
  ([PrimitiveTypesFacts], [AliasConversions]), the header as a list of
  directives ([PreprocessorFacts], [HeaderInclusion]), and the macro at run
  time: its body ([RuntimeFacts]) and its statements at a call site, where
  the argument meets the macro's own local ([CallSites]). *)

From Stdlib Require Import ZArith Lia Ascii String.
From stdpp Require Import base tactics option list strings gmap fin_maps.

Local Open Scope Z_scope.

(* ===================================================================== *)
(** ** primitive_types.hpp                                                *)
(* ===================================================================== *)

Module PrimitiveTypes.

(** The standard types the header mentions on the right of [using]. *)
Inductive StdType : Type :=
| std_uint8_t | std_uint16_t | std_uint32_t | std_uint64_t
| std_int8_t | std_int16_t | std_int32_t | std_int64_t
| std_size_t | std_ptrdiff_t
| std_uint_fast32_t | std_int_fast32_t
| cpp_float | cpp_double | cpp_long_double.

(** The names the header introduces, in the order of the file. *)
Inductive Alias : Type :=
| u8 | u16 | u32 | u64
| i8 | i16 | i32 | i64
| usize | ssize
| ufast32 | ifast32
| f32 | f64 | f80.

(** [using <alias> = <type>;], lines 9 to 40 of the header. *)
Definition underlying (a : Alias) : StdType :=
  match a with
  | u8 => std_uint8_t
  | u16 => std_uint16_t
  | u32 => std_uint32_t
  | u64 => std_uint64_t
  | i8 => std_int8_t
  | i16 => std_int16_t
  | i32 => std_int32_t
  | i64 => std_int64_t
  | usize => std_size_t
  | ssize => std_ptrdiff_t
  | ufast32 => std_uint_fast32_t
  | ifast32 => std_int_fast32_t
  | f32 => cpp_float
  | f64 => cpp_double
  | f80 => cpp_long_double
  end.

(** An integer representation: number of bits (all of them value bits
    for an unsigned type, one of them the sign for a signed type, which
    is two's complement) and signedness. *)
Record IntFormat : Type := { bits : Z; is_signed : bool }.

Definition unsigned_of (w : Z) : IntFormat := {| bits := w; is_signed := false |}.
Definition signed_of (w : Z) : IntFormat := {| bits := w; is_signed := true |}.

(** The fundamental integer types that [size_t] and [ptrdiff_t] are
    typedefs of. *)
Inductive Fundamental : Type :=
| unsigned_int | unsigned_long | unsigned_long_long
| signed_int | signed_long | signed_long_long.

(** The data models of the platforms the headers are built for: 32-bit
    targets (ILP32), 64-bit Windows (LLP64) and 64-bit Unix (LP64). *)
Inductive DataModel : Type := ILP32 | LLP64 | LP64.

Definition long_bits (dm : DataModel) : Z :=
  match dm with
  | ILP32 | LLP64 => 32
  | LP64 => 64
  end.

Definition fundamental_format (dm : DataModel) (f : Fundamental) : IntFormat :=
  match f with
  | unsigned_int => unsigned_of 32
  | unsigned_long => unsigned_of (long_bits dm)
  | unsigned_long_long => unsigned_of 64
  | signed_int => signed_of 32
  | signed_long => signed_of (long_bits dm)
  | signed_long_long => signed_of 64
  end.

(** [<cstddef>]: the result type of [sizeof] and the type of a pointer
    difference, as the ABI of each data model declares them. *)
Definition size_t_is (dm : DataModel) : Fundamental :=
  match dm with
  | ILP32 => unsigned_int
  | LLP64 => unsigned_long_long
  | LP64 => unsigned_long
  end.

Definition ptrdiff_t_is (dm : DataModel) : Fundamental :=
  match dm with
  | ILP32 => signed_int
  | LLP64 => signed_long_long
  | LP64 => signed_long
  end.

(** Integer format of a standard type.  The exact-width types of
    [<cstdint>] have the width in their name, no padding bits and, when
    signed, a two's complement representation, on every platform that
    provides them.  [None]: a floating-point type, or an integer type
    whose width is a choice of the C library ([uint_fast32_t] and
    [int_fast32_t] are only known to have at least 32 bits). *)
Definition format_of (dm : DataModel) (t : StdType) : option IntFormat :=
  match t with
  | std_uint8_t => Some (unsigned_of 8)
  | std_uint16_t => Some (unsigned_of 16)
  | std_uint32_t => Some (unsigned_of 32)
  | std_uint64_t => Some (unsigned_of 64)
  | std_int8_t => Some (signed_of 8)
  | std_int16_t => Some (signed_of 16)
  | std_int32_t => Some (signed_of 32)
  | std_int64_t => Some (signed_of 64)
  | std_size_t => Some (fundamental_format dm (size_t_is dm))
  | std_ptrdiff_t => Some (fundamental_format dm (ptrdiff_t_is dm))
  | std_uint_fast32_t | std_int_fast32_t => None
  | cpp_float | cpp_double | cpp_long_double => None
  end.

Definition alias_format (dm : DataModel) (a : Alias) : option IntFormat :=
  format_of dm (underlying a).

Definition bit_width (dm : DataModel) (a : Alias) : option Z :=
  bits <$> alias_format dm a.

(** [std::uint8_t] exists only where a byte has eight bits. *)
Definition CHAR_BIT : Z := 8.

(** [sizeof]: exact-width types have no padding, so the size in bytes is
    the width over [CHAR_BIT]. *)
Definition sizeof (dm : DataModel) (a : Alias) : option Z :=
  (λ w, w / CHAR_BIT) <$> bit_width dm a.

(** Smallest and largest value of a format. *)
Definition min_value (f : IntFormat) : Z :=
  if is_signed f then - 2 ^ (bits f - 1) else 0.

Definition max_value (f : IntFormat) : Z :=
  if is_signed f then 2 ^ (bits f - 1) - 1 else 2 ^ bits f - 1.

(** The value an object of format [f] holds when its storage holds the
    bit pattern [pattern] (only the low [bits f] bits are storage).  In a
    signed format the top bit is the sign, of weight [- 2 ^ (bits f - 1)];
    in an unsigned format every bit has a positive weight. *)
Definition decode (f : IntFormat) (pattern : Z) : Z :=
  let low := pattern mod 2 ^ bits f in
  if is_signed f && Z.testbit low (bits f - 1) then low - 2 ^ bits f else low.

(** A format has a sign bit when setting the top bit alone gives a
    negative value. *)
Definition has_sign_bit (f : IntFormat) : bool :=
  decode f (Z.shiftl 1 (bits f - 1)) <? 0.

(** Converting the integer [v] to an object of format [f]: the storage
    receives the low [bits f] bits of [v], and the object then holds the one
    value of the format that is congruent to [v] modulo [2 ^ bits f]. *)
Definition encode (f : IntFormat) (v : Z) : Z := v mod 2 ^ bits f.

Definition convert (f : IntFormat) (v : Z) : Z := decode f (encode f v).

Definition representable (f : IntFormat) (v : Z) : bool :=
  (min_value f <=? v) && (v <=? max_value f).

(** Every value of alias [a] is a value of alias [b]. *)
Definition widens (dm : DataModel) (a b : Alias) : bool :=
  match alias_format dm a, alias_format dm b with
  | Some fa, Some fb =>
      (min_value fb <=? min_value fa) && (max_value fa <=? max_value fb)
  | _, _ => false
  end.

(** The unsigned aliases of the header with the signed alias declared
    for the same width. *)
Definition signedness_pairs : list (Alias * Alias) :=
  [ (u8, i8); (u16, i16); (u32, i32); (u64, i64); (usize, ssize) ].

(** From an alias to the next wider one of the same signedness, from an
    unsigned alias to the signed alias of twice the width, and between the
    size aliases and the exact-width ones. *)
Definition widening_pairs : list (Alias * Alias) :=
  [ (u8, u16); (u16, u32); (u32, u64);
    (i8, i16); (i16, i32); (i32, i64);
    (u8, i16); (u16, i32); (u32, i64);
    (u32, usize); (usize, u64); (i32, ssize); (ssize, i64) ].

End PrimitiveTypes.

(* ===================================================================== *)
(** ** macros.hpp, as the preprocessor sees it                            *)
(* ===================================================================== *)

Module Preprocessor.

(** A macro definition: the replacement list is a list of preprocessing
    tokens; a function-like macro also has parameter names. *)
Inductive Macro : Type :=
| ObjectLike (replacement : list string)
| FunctionLike (params : list string) (replacement : list string).

#[global] Instance Macro_eq_dec : EqDecision Macro.
Proof. solve_decision. Defined.

#[local] Unset Elimination Schemes.

(** The directives the header uses. *)
Inductive Directive : Type :=
| PragmaOnce
| Define (name : string) (m : Macro)
| IfNDef (name : string) (then_group else_group : list Directive).

#[local] Set Elimination Schemes.

(** [#define]: a name that is already defined may only be defined again
    with the same definition; any other redefinition makes the
    translation unit ill-formed ([None]). *)
Definition define (name : string) (m : Macro) (env : gmap string Macro)
  : option (gmap string Macro) :=
  match env !! name with
  | None => Some (<[name := m]> env)
  | Some m' => if decide (m' = m) then Some env else None
  end.

(** One directive.  [#ifndef X] takes its first group when [X] is not
    defined as a macro name (whatever its value would be) and its
    [#else] group otherwise. *)
Fixpoint process (d : Directive) (env : gmap string Macro)
  : option (gmap string Macro) :=
  match d with
  | PragmaOnce => Some env
  | Define name m => define name m env
  | IfNDef name then_group else_group =>
      let group :=
        fix group (ds : list Directive) (env : gmap string Macro) :=
          match ds with
          | [] => Some env
          | d :: ds' =>
              match process d env with
              | Some env' => group ds' env'
              | None => None
              end
          end in
      match env !! name with
      | None => group then_group env
      | Some _ => group else_group env
      end
  end.

(** A group of directives, in order. *)
Fixpoint preprocess (ds : list Directive) (env : gmap string Macro)
  : option (gmap string Macro) :=
  match ds with
  | [] => Some env
  | d :: ds' =>
      match process d env with
      | Some env' => preprocess ds' env'
      | None => None
      end
  end.

Definition dquote : string := String (Ascii.ascii_of_nat 34) EmptyString.

(** Replacement list of [EXPECTED_VOID(expr)], lines 4 to 10. *)
Definition EXPECTED_VOID_body : list string :=
  [ "("; "{";
    "std"; "::"; "expected"; "<"; "void"; ","; "std"; "::"; "string"; ">";
    "expected"; "="; "("; "expr"; ")"; ";";
    "if"; "("; "!"; "expected"; ")"; "{";
    "std"; "::"; "println"; "("; dquote +:+ "{}" +:+ dquote; ",";
    "expected"; "."; "error"; "("; ")"; ")"; ";";
    "std"; "::"; "exit"; "("; "1"; ")"; ";";
    "}";
    "}"; ")" ].

(** The header, directive by directive. *)
Definition macros_hpp : list Directive :=
  [ PragmaOnce;
    Define "EXPECTED_VOID" (FunctionLike ["expr"] EXPECTED_VOID_body);
    IfNDef "NOEXCEPT_ENABLED"
      [ Define "NOEXCEPT" (ObjectLike ["noexcept"]) ]
      [ Define "NOEXCEPT" (ObjectLike []) ];
    IfNDef "NDEBUG"
      [ Define "NDEBUG" (ObjectLike ["1"]) ]
      [] ].

(** The macro table after the header, from the table the surrounding
    build ([-D] options, earlier headers) has set up. *)
Definition include_macros_hpp (env : gmap string Macro) : option (gmap string Macro) :=
  preprocess macros_hpp env.

(** What an object-like macro name is replaced with. *)
Definition expansion (env : gmap string Macro) (name : string) : option (list string) :=
  match env !! name with
  | Some (ObjectLike replacement) => Some replacement
  | _ => None
  end.

Definition is_defined (env : gmap string Macro) (name : string) : bool :=
  bool_decide (is_Some (env !! name)).

(** [<cassert>]: [assert(e)] checks [e] unless [NDEBUG] is defined as a
    macro name, with any value, where the header is included; then
    [assert(e)] is [((void)0)]. *)
Definition assertions_enabled (env : gmap string Macro) : bool :=
  negb (is_defined env "NDEBUG").

(** Three surrounding builds: one that defines nothing, one compiled with
    [-DNDEBUG=] (the flag defined, with an empty value) and one compiled
    with [-DNOEXCEPT_ENABLED]. *)
Definition bare_build : gmap string Macro := ∅.

Definition ndebug_build : gmap string Macro := {[ "NDEBUG" := ObjectLike [] ]}.

Definition toggled_build : gmap string Macro :=
  {[ "NOEXCEPT_ENABLED" := ObjectLike ["1"] ]}.

(** A build that has already defined [NOEXCEPT] its own way. *)
Definition clashing_build : gmap string Macro :=
  {[ "NOEXCEPT" := ObjectLike ["throw"; "("; ")"] ]}.

End Preprocessor.

(* ===================================================================== *)
(** ** macros.hpp, as the running program sees it                         *)
(* ===================================================================== *)

Module Runtime.

(** [std::expected<void, std::string>]: success without a payload, or a
    failure carrying a message. *)
Inductive Expected : Type :=
| Value
| Unexpected (message : string).

(** [explicit operator bool], used as [!expected]. *)
Definition has_value (e : Expected) : bool :=
  match e with
  | Value => true
  | Unexpected _ => false
  end.

(** [expected.error()].  The macro calls it only after [!expected] held;
    on a success value the call has no defined result and the model
    gives the empty string. *)
Definition error (e : Expected) : string :=
  match e with
  | Value => EmptyString
  | Unexpected message => message
  end.

(** What the program can observe and change: its variables and the text
    written to the standard output stream so far. *)
Record Store : Type := { globals : gmap string Z; stdout : string }.

Definition write (text : string) (s : Store) : Store :=
  {| globals := globals s; stdout := stdout s +:+ text |}.

(** Something the C++ runtime may call on the program's behalf: a function
    registered with [std::atexit], or the destructor of an object. *)
Record Cleanup : Type := { cleanup_name : string; cleanup_run : Store → Store }.

(** A running process.  [registered]: the functions registered with
    [std::atexit] and the destructors of the constructed objects of static
    storage duration, most recent first.  [automatic]: the destructors of the
    automatic objects alive in the active calls, innermost first; stack
    unwinding is what would run them. *)
Record Process : Type := {
  store : Store;
  registered : list Cleanup;
  automatic : list Cleanup
}.

Definition with_store (f : Store → Store) (p : Process) : Process :=
  {| store := f (store p); registered := registered p; automatic := automatic p |}.

(** Evaluating an expression or statement in a process either completes,
    with a value and the process as it has become, or calls [std::exit] and
    never comes back. *)
Inductive Outcome (A : Type) : Type :=
| Returned (a : A) (p : Process)
| Exiting (status : Z) (p : Process).

Arguments Returned {A} a p.
Arguments Exiting {A} status p.

Definition M (A : Type) : Type := Process → Outcome A.

Definition ret {A : Type} (a : A) : M A := λ p, Returned a p.

(** Sequencing: what follows a call of [std::exit] is not run. *)
Definition bind {A B : Type} (m : M A) (k : A → M B) : M B :=
  λ p, match m p with
       | Returned a p' => k a p'
       | Exiting status p' => Exiting status p'
       end.

#[global] Instance M_ret : MRet M := @ret.
#[global] Instance M_bind : MBind M := λ A B k m, bind m k.

(** [std::format] for string arguments: [{}] is replaced by the next
    argument, [{{] and [}}] stand for one brace; the arguments themselves
    are copied, never scanned. *)
Fixpoint std_format (fmt : string) (args : list string) : string :=
  match fmt with
  | EmptyString => EmptyString
  | String "{"%char (String "}"%char rest) =>
      match args with
      | a :: args' => a +:+ std_format rest args'
      | [] => std_format rest []
      end
  | String "{"%char (String "{"%char rest) => String "{"%char (std_format rest args)
  | String "}"%char (String "}"%char rest) => String "}"%char (std_format rest args)
  | String c rest => String c (std_format rest args)
  end.

Definition newline : string := String (Ascii.ascii_of_nat 10) EmptyString.

(** [std::println(fmt, args...)]: the formatted text and a newline, to
    [stdout]. *)
Definition std_println (fmt : string) (args : list string) : M unit :=
  λ p, Returned tt (with_store (write (std_format fmt args +:+ newline)) p).

(** [std::exit(status)]: control leaves the program for the runtime. *)
Definition std_exit {A : Type} (status : Z) : M A :=
  λ p, Exiting status p.

(** [EXPECTED_VOID(expr)], lines 3 to 10:
[[
    std::expected<void, std::string> expected = (expr);
    if (!expected) {
      std::println("{}", expected.error());
      std::exit(1);
    }
]]
    [expr] is the initializer of line 5 as it is evaluated there, inside
    the block of the macro, where the local [expected] is already
    declared; [EXPECTED_VOID_statement], below, gets it from the argument
    the caller wrote. *)
Definition EXPECTED_VOID (expr : M Expected) : M unit :=
  expected ← expr;
  if negb (has_value expected) then
    std_println "{}" [error expected];;
    std_exit 1
  else
    mret tt.

(** How a process ends. [invoked]: the registered cleanups that were
    called, in call order.  [undestroyed]: the automatic objects that
    were alive and whose destructors were never run. *)
Record Ended : Type := {
  exit_status : Z;
  final : Store;
  invoked : list string;
  undestroyed : list string
}.

Definition run_cleanups (cs : list Cleanup) (s : Store) : Store :=
  foldl (λ s c, cleanup_run c s) s cs.

(** What [std::exit(status)] does once called: the objects of static
    storage duration are destroyed and the functions registered with
    [std::atexit] are called, in the reverse order of their registration;
    automatic objects are not destroyed; the C streams are flushed, so the
    text written to [stdout] reaches the host; the host gets [status]. *)
Definition std_exit_effects (status : Z) (p : Process) : Ended :=
  {| exit_status := status;
     final := run_cleanups (registered p) (store p);
     invoked := cleanup_name <$> registered p;
     undestroyed := cleanup_name <$> automatic p |}.

(** The end of the process an evaluation leads to, if it leads to one. *)
Definition termination {A : Type} (o : Outcome A) : option Ended :=
  match o with
  | Returned _ _ => None
  | Exiting status p => Some (std_exit_effects status p)
  end.

(** Reading and writing a variable of the program. *)
Definition get_global (name : string) (p : Process) : Z :=
  default 0 (globals (store p) !! name).

Definition set_global (name : string) (v : Z) (p : Process) : Process :=
  with_store (λ s, {| globals := <[name := v]> (globals s); stdout := stdout s |}) p.

(** A fallible operation with an observable side effect: it adds one to
    the variable [counter] each time it is evaluated and yields [result]. *)
Definition counting_operation (counter : string) (result : Expected) : M Expected :=
  λ p, Returned result (set_global counter (get_global counter p + 1) p).

(** The process state an evaluation leaves behind, whichever way it ends. *)
Definition state_after {A : Type} (o : Outcome A) : Process :=
  match o with
  | Returned _ p => p
  | Exiting _ p => p
  end.

(** A process that has registered nothing and holds no object. *)
Definition fresh_process : Process :=
  {| store := {| globals := ∅; stdout := EmptyString |};
     registered := [];
     automatic := [] |}.

(** A process that has registered [farewell] with [std::atexit] and has
    the automatic object [guard] alive in [main]. *)
Definition farewell : Cleanup :=
  {| cleanup_name := "farewell"; cleanup_run := write "bye" |}.

Definition guard : Cleanup :=
  {| cleanup_name := "guard"; cleanup_run := write "released" |}.

Definition process_with_cleanups : Process :=
  {| store := {| globals := ∅; stdout := EmptyString |};
     registered := [farewell];
     automatic := [guard] |}.

(** Two fallible operations without side effects. *)
Definition succeeds : M Expected := mret Value.

Definition disk_full : M Expected := mret (Unexpected "disk full").

(** Consecutive statements [EXPECTED_VOID(op1); ... EXPECTED_VOID(opn);]. *)
Fixpoint checked_sequence (ops : list (M Expected)) : M unit :=
  match ops with
  | [] => mret tt
  | op :: ops' => EXPECTED_VOID op;; checked_sequence ops'
  end.

(** The same operations evaluated in order without the macro, their
    results collected. *)
Fixpoint evaluate_all (ops : list (M Expected)) : M (list Expected) :=
  match ops with
  | [] => mret []
  | op :: ops' => r ← op; rs ← evaluate_all ops'; mret (r :: rs)
  end.


(** An operation that writes [text] and yields [result]. *)
Definition chatty (text : string) (result : Expected) : M Expected :=
  λ p, Returned result (with_store (write text) p).

(** An argument as the caller writes it.  The macro evaluates it in the
    initializer of line 5, and the one name that means something else there
    than where the caller wrote it is [expected]: the scope of the local
    declared on line 5 begins before its initializer.  So an argument is
    its evaluation as a function of what the name [expected] reads as. *)
Definition Argument : Type := Expected → M Expected.

(** An argument that does not name [expected]. *)
Definition closed (op : M Expected) : Argument := λ _, op.

(** The argument [expected]: the object of that name, read. *)
Definition the_name_expected : Argument := λ named, mret named.

(** The operation the caller passes: the argument where the caller wrote
    it, with [expected] naming the caller's own object, which holds
    [callers]. *)
Definition at_call_site (callers : Expected) (arg : Argument) : M Expected :=
  arg callers.

(** The statement [EXPECTED_VOID(arg);].  Inside the initializer the name
    [expected] denotes the macro's local, which is only being initialised,
    whatever object the caller has under that name.  [local] is what the
    storage of that local reads as; the language leaves it indeterminate. *)
Definition EXPECTED_VOID_statement (local : Expected) (arg : Argument) : M unit :=
  EXPECTED_VOID (arg local).

(** Storage that reads as a failure with an empty message, as storage
    filled with zeros does: the has-value flag is off and the string is
    empty. *)
Definition zeroed : Expected := Unexpected EmptyString.

(** The initializers of consecutive statements
    [EXPECTED_VOID(arg1); ... EXPECTED_VOID(argn);], each statement given
    with what its local's storage reads as. *)
Definition initializers (calls : list (Expected * Argument)) : list (M Expected) :=
  (λ call, call.2 call.1) <$> calls.

Definition checked_statements (calls : list (Expected * Argument)) : M unit :=
  checked_sequence (initializers calls).

End Runtime.

(* ===================================================================== *)
(** ** Facts about primitive_types.hpp                                    *)
(* ===================================================================== *)

Module PrimitiveTypesFacts.
Import PrimitiveTypes.

(** In [w] bits, the top bit is set exactly from [2 ^ (w - 1)] on. *)
Lemma top_bit_threshold (w x : Z) :
  0 < w → 0 ≤ x < 2 ^ w →
  Z.testbit x (w - 1) = true ↔ 2 ^ (w - 1) ≤ x.
Proof.
  intros Hw Hx.
  assert (Hpow : 2 ^ w = 2 * 2 ^ (w - 1)).
  { replace w with (Z.succ (w - 1)) at 1 by lia. apply Z.pow_succ_r; lia. }
  assert (Hpos : 0 < 2 ^ (w - 1)) by (apply Z.pow_pos_nonneg; lia).
  rewrite Z.testbit_true by lia.
  split.
  - intros Hbit.
    destruct (Z_lt_le_dec x (2 ^ (w - 1))) as [Hlt | Hge]; [| exact Hge].
    rewrite Z.div_small in Hbit by lia. discriminate Hbit.
  - intros Hge.
    assert (Hq : x / 2 ^ (w - 1) = 1).
    { symmetry. apply (Z.div_unique x (2 ^ (w - 1)) 1 (x - 2 ^ (w - 1))); lia. }
    rewrite Hq. reflexivity.
Qed.

(** Every bit pattern decodes to a value of the format's range. *)
Lemma decode_range (f : IntFormat) (pattern : Z) :
  0 < bits f → min_value f ≤ decode f pattern ≤ max_value f.
Proof.
  intros Hw. unfold decode, min_value, max_value.
  set (w := bits f) in *.
  assert (Hpow : 2 ^ w = 2 * 2 ^ (w - 1)).
  { replace w with (Z.succ (w - 1)) at 1 by lia. apply Z.pow_succ_r; lia. }
  assert (Hpos : 0 < 2 ^ (w - 1)) by (apply Z.pow_pos_nonneg; lia).
  assert (Hlow : 0 ≤ pattern mod 2 ^ w < 2 ^ w) by (apply Z.mod_pos_bound; lia).
  destruct (is_signed f); simpl; [| lia].
  destruct (Z.testbit (pattern mod 2 ^ w) (w - 1)) eqn:Hbit.
  - apply top_bit_threshold in Hbit; lia.
  - assert (¬ 2 ^ (w - 1) ≤ pattern mod 2 ^ w).
    { intros Hge. apply top_bit_threshold in Hge; [congruence | lia | lia]. }
    lia.
Qed.

(** Only a signed format has a sign bit. *)
Lemma has_sign_bit_signed (f : IntFormat) :
  0 < bits f → has_sign_bit f = is_signed f.
Proof.
  intros Hw. unfold has_sign_bit, decode.
  set (w := bits f) in *.
  assert (Hpow : 2 ^ w = 2 * 2 ^ (w - 1)).
  { replace w with (Z.succ (w - 1)) at 1 by lia. apply Z.pow_succ_r; lia. }
  assert (Hpos : 0 < 2 ^ (w - 1)) by (apply Z.pow_pos_nonneg; lia).
  rewrite Z.shiftl_1_l.
  rewrite (Z.mod_small (2 ^ (w - 1))) by lia.
  assert (Hbit : Z.testbit (2 ^ (w - 1)) (w - 1) = true)
    by (apply top_bit_threshold; lia).
  rewrite Hbit.
  destruct (is_signed f); simpl.
  - apply Z.ltb_lt. lia.
  - apply Z.ltb_ge. lia.
Qed.

(** C8: each of [u8], [u16], [u32], [u64] is an unsigned type of exactly 8,
    16, 32, 64 bits and each of [i8], [i16], [i32], [i64] a signed type of
    exactly 8, 16, 32, 64 bits, on every data model; in particular [u64]
    occupies exactly 8 bytes, has no sign bit, and holds exactly the values
    from 0 to [2 ^ 64 - 1], whatever bit pattern its storage holds. *)
Theorem exact_width_aliases (dm : DataModel) :
  (alias_format dm u8 = Some {| bits := 8; is_signed := false |}
   ∧ alias_format dm u16 = Some {| bits := 16; is_signed := false |}
   ∧ alias_format dm u32 = Some {| bits := 32; is_signed := false |}
   ∧ alias_format dm u64 = Some {| bits := 64; is_signed := false |})
  ∧ (alias_format dm i8 = Some {| bits := 8; is_signed := true |}
     ∧ alias_format dm i16 = Some {| bits := 16; is_signed := true |}
     ∧ alias_format dm i32 = Some {| bits := 32; is_signed := true |}
     ∧ alias_format dm i64 = Some {| bits := 64; is_signed := true |})
  ∧ (sizeof dm u64 = Some 8
     ∧ has_sign_bit <$> alias_format dm u64 = Some false
     ∧ ∀ pattern : Z,
         0 ≤ decode (unsigned_of 64) pattern ≤ 18446744073709551615)
  ∧ (∀ (a : Alias) (f : IntFormat),
       a ∈ [u8; u16; u32; u64; i8; i16; i32; i64] →
       alias_format dm a = Some f →
       has_sign_bit f = is_signed f
       ∧ sizeof dm a = Some (bits f / 8)
       ∧ ∀ pattern : Z, min_value f ≤ decode f pattern ≤ max_value f).
Proof.
  split; [repeat split |]. split; [repeat split |]. split.
  - split; [reflexivity |]. split.
    + reflexivity.
    + intros pattern.
      exact (decode_range (unsigned_of 64) pattern eq_refl).
  - intros a f Ha Hf.
    assert (Hw : 0 < bits f).
    { rewrite !elem_of_cons in Ha.
      destruct Ha as [-> | [-> | [-> | [-> | [-> | [-> | [-> | [-> | Ha]]]]]]]];
        [injection Hf as <-; reflexivity .. | by apply elem_of_nil in Ha]. }
    split; [by apply has_sign_bit_signed |].
    split; [| intros pattern; by apply decode_range].
    unfold sizeof, bit_width. rewrite Hf. reflexivity.
Qed.

(** C9: on each data model [usize] and [ssize] have the same bit width
    (the first unsigned, the second signed). *)
Theorem usize_ssize_same_width (dm : DataModel) :
  ∃ w : Z,
    alias_format dm usize = Some {| bits := w; is_signed := false |}
    ∧ alias_format dm ssize = Some {| bits := w; is_signed := true |}
    ∧ bit_width dm usize = bit_width dm ssize.
Proof.
  destruct dm.
  - exists 32. repeat split.
  - exists 64. repeat split.
  - exists 64. repeat split.
Qed.

End PrimitiveTypesFacts.

(* ===================================================================== *)
(** ** Facts about the preprocessor and the directives of macros.hpp      *)
(* ===================================================================== *)

Module PreprocessorFacts.
Import Preprocessor.

Section DirectiveInduction.
Variable P : Directive → Prop.
Hypothesis P_pragma : P PragmaOnce.
Hypothesis P_define : ∀ name m, P (Define name m).
Hypothesis P_ifndef :
  ∀ name then_group else_group,
    Forall P then_group → Forall P else_group →
    P (IfNDef name then_group else_group).

(** Induction over directives, with the groups of a conditional as
    induction hypotheses. *)
Lemma Directive_nested_ind : ∀ d, P d.
Proof.
  fix IH 1. intros [| name m | name then_group else_group].
  - exact P_pragma.
  - exact (P_define name m).
  - apply P_ifndef.
    + induction then_group as [| d ds IHds]; constructor; [apply IH | exact IHds].
    + induction else_group as [| d ds IHds]; constructor; [apply IH | exact IHds].
Qed.
End DirectiveInduction.

(** A conditional runs one of its groups as a group. *)
Lemma process_IfNDef name then_group else_group env :
  process (IfNDef name then_group else_group) env =
  match env !! name with
  | None => preprocess then_group env
  | Some _ => preprocess else_group env
  end.
Proof. reflexivity. Qed.

(** A successful [#define] leaves the table with the definition in it. *)
Lemma define_Some name m env env' :
  define name m env = Some env' → env' = <[name := m]> env.
Proof.
  unfold define. destruct (env !! name) as [m' |] eqn:Hname.
  - destruct (decide (m' = m)) as [-> |]; [| discriminate].
    intros [= <-]. symmetry. by apply insert_id.
  - by intros [= <-].
Qed.

Lemma define_fresh name m env :
  env !! name = None → define name m env = Some (<[name := m]> env).
Proof. intros Hname. unfold define. by rewrite Hname. Qed.

(** A successful [#define] changes no definition that was there. *)
Lemma define_keeps name m env env' k v :
  define name m env = Some env' → env !! k = Some v → env' !! k = Some v.
Proof.
  unfold define. destruct (env !! name) as [m' |] eqn:Hname.
  - destruct (decide (m' = m)); [| discriminate]. by intros [= <-].
  - intros [= <-] Hk. rewrite lookup_insert_ne; [done | congruence].
Qed.

(** No directive changes or removes a definition that was there. *)
Lemma process_keeps d :
  ∀ env env' k v,
    process d env = Some env' → env !! k = Some v → env' !! k = Some v.
Proof.
  induction d as [| name m | name then_group else_group IHt IHe]
    using Directive_nested_ind; intros env env' k v Hrun Hk.
  - by injection Hrun as <-.
  - by eapply define_keeps.
  - rewrite process_IfNDef in Hrun.
    assert (Hgroup : ∀ ds, Forall (λ d, ∀ env env' k v,
              process d env = Some env' → env !! k = Some v → env' !! k = Some v) ds →
            ∀ env env', preprocess ds env = Some env' →
            env !! k = Some v → env' !! k = Some v).
    { clear. intros ds Hds. induction Hds as [| d ds Hd _ IHds]; intros env env' Hrun Hk.
      - by injection Hrun as <-.
      - simpl in Hrun. destruct (process d env) as [env1 |] eqn:Hd1; [| discriminate].
        eapply IHds; [exact Hrun |]. by eapply Hd. }
    destruct (env !! name);
      [exact (Hgroup else_group IHe env env' Hrun Hk)
      | exact (Hgroup then_group IHt env env' Hrun Hk)].
Qed.

Lemma preprocess_keeps ds :
  ∀ env env' k v,
    preprocess ds env = Some env' → env !! k = Some v → env' !! k = Some v.
Proof.
  induction ds as [| d ds IHds]; intros env env' k v Hrun Hk.
  - by injection Hrun as <-.
  - simpl in Hrun. destruct (process d env) as [env1 |] eqn:Hd; [| discriminate].
    eapply IHds; [exact Hrun |]. by eapply process_keeps.
Qed.

(** The three steps of the header, one after the other. *)
Lemma include_macros_hpp_Some env env' :
  include_macros_hpp env = Some env' →
  ∃ env1 env2,
    define "EXPECTED_VOID" (FunctionLike ["expr"] EXPECTED_VOID_body) env = Some env1
    ∧ define "NOEXCEPT"
        (ObjectLike (if is_defined env "NOEXCEPT_ENABLED" then [] else ["noexcept"]))
        env1 = Some env2
    ∧ match env2 !! "NDEBUG" with
      | None => define "NDEBUG" (ObjectLike ["1"]) env2
      | Some _ => Some env2
      end = Some env'.
Proof.
  unfold include_macros_hpp, macros_hpp. cbn [preprocess process].
  destruct (define "EXPECTED_VOID" _ env) as [env1 |] eqn:H1; [| discriminate].
  assert (Htoggle : env1 !! "NOEXCEPT_ENABLED" = env !! "NOEXCEPT_ENABLED").
  { apply define_Some in H1 as ->. by rewrite lookup_insert_ne. }
  rewrite Htoggle. unfold is_defined.
  destruct (env !! "NOEXCEPT_ENABLED") as [toggle |] eqn:Hen.
  - rewrite bool_decide_eq_true_2 by eauto.
    destruct (define "NOEXCEPT" _ env1) as [env2 |] eqn:H2; [| discriminate].
    intros Hrun. exists env1, env2. split; [done |]. split; [exact H2 |].
    destruct (env2 !! "NDEBUG"); [done |].
    by destruct (define "NDEBUG" _ env2).
  - rewrite bool_decide_eq_false_2 by (intros [? ?]; discriminate).
    destruct (define "NOEXCEPT" _ env1) as [env2 |] eqn:H2; [| discriminate].
    intros Hrun. exists env1, env2. split; [done |]. split; [exact H2 |].
    destruct (env2 !! "NDEBUG"); [done |].
    by destruct (define "NDEBUG" _ env2).
Qed.

(** The header is well-formed where neither of the two names it defines
    without a guard is already taken. *)
Lemma include_macros_hpp_total env :
  env !! "EXPECTED_VOID" = None → env !! "NOEXCEPT" = None →
  is_Some (include_macros_hpp env).
Proof.
  intros Hev Hne.
  unfold include_macros_hpp, macros_hpp. cbn [preprocess process].
  rewrite (define_fresh _ _ _ Hev).
  rewrite (lookup_insert_ne env "EXPECTED_VOID" "NOEXCEPT_ENABLED") by done.
  set (env1 := <["EXPECTED_VOID" := _]> env).
  assert (Hne1 : env1 !! "NOEXCEPT" = None) by (subst env1; by rewrite lookup_insert_ne).
  destruct (env !! "NOEXCEPT_ENABLED");
    rewrite (define_fresh _ _ _ Hne1);
    match goal with
    | |- context [<["NOEXCEPT" := ?m]> env1] => set (env2 := <["NOEXCEPT" := m]> env1)
    end;
    (destruct (env2 !! "NDEBUG") eqn:Hnd;
     [eauto | rewrite (define_fresh _ _ _ Hnd); eauto]).
Qed.

(** After the header, [NOEXCEPT] is defined by the branch the toggle
    selects. *)
Lemma include_macros_hpp_NOEXCEPT env env' :
  include_macros_hpp env = Some env' →
  env' !! "NOEXCEPT" =
    Some (ObjectLike (if is_defined env "NOEXCEPT_ENABLED" then [] else ["noexcept"])).
Proof.
  intros (env1 & env2 & _ & H2 & H3)%include_macros_hpp_Some.
  assert (Hin : env2 !! "NOEXCEPT" =
    Some (ObjectLike (if is_defined env "NOEXCEPT_ENABLED" then [] else ["noexcept"]))).
  { apply define_Some in H2 as ->. apply lookup_insert_eq. }
  destruct (env2 !! "NDEBUG").
  - by injection H3 as <-.
  - by eapply define_keeps.
Qed.

(** After the header, [NDEBUG] is defined: as it was, or as [1]. *)
Lemma include_macros_hpp_NDEBUG env env' :
  include_macros_hpp env = Some env' →
  env' !! "NDEBUG" = Some (default (ObjectLike ["1"]) (env !! "NDEBUG")).
Proof.
  intros (env1 & env2 & H1 & H2 & H3)%include_macros_hpp_Some.
  assert (Hsame : env2 !! "NDEBUG" = env !! "NDEBUG").
  { apply define_Some in H1 as ->. apply define_Some in H2 as ->.
    by rewrite !lookup_insert_ne. }
  rewrite <- Hsame. destruct (env2 !! "NDEBUG") as [v |] eqn:Hnd.
  - by injection H3 as <-.
  - apply define_Some in H3 as ->. apply lookup_insert_eq.
Qed.

(** C5: [NOEXCEPT] depends on the one toggle [NOEXCEPT_ENABLED]: the header
    is accepted in every build that has not taken the names it defines,
    and whenever it is accepted, [NOEXCEPT] expands to the token [noexcept]
    if the toggle is not defined and to nothing if it is defined. *)
Theorem NOEXCEPT_follows_toggle (env : gmap string Macro) :
  (env !! "EXPECTED_VOID" = None → env !! "NOEXCEPT" = None →
   is_Some (include_macros_hpp env))
  ∧ ∀ env' : gmap string Macro,
      include_macros_hpp env = Some env' →
      (env !! "NOEXCEPT_ENABLED" = None →
       expansion env' "NOEXCEPT" = Some ["noexcept"])
      ∧ (is_Some (env !! "NOEXCEPT_ENABLED") →
         expansion env' "NOEXCEPT" = Some []).
Proof.
  split; [apply include_macros_hpp_total |].
  intros env' Hrun. apply include_macros_hpp_NOEXCEPT in Hrun.
  unfold expansion. rewrite Hrun. unfold is_defined. split.
  - intros Hoff. rewrite bool_decide_eq_false_2; [done |].
    rewrite Hoff. by intros [? ?].
  - intros Hon. by rewrite bool_decide_eq_true_2.
Qed.

Lemma NOEXCEPT_follows_toggle_witness :
  (is_Some (include_macros_hpp bare_build)
   ∧ ∀ env', include_macros_hpp bare_build = Some env' →
       expansion env' "NOEXCEPT" = Some ["noexcept"])
  ∧ (is_Some (include_macros_hpp toggled_build)
     ∧ ∀ env', include_macros_hpp toggled_build = Some env' →
         expansion env' "NOEXCEPT" = Some []).
Proof.
  split.
  - split.
    + apply (proj1 (NOEXCEPT_follows_toggle bare_build)); reflexivity.
    + intros env' Hrun.
      apply (proj1 (proj2 (NOEXCEPT_follows_toggle bare_build) env' Hrun)).
      reflexivity.
  - split.
    + apply (proj1 (NOEXCEPT_follows_toggle toggled_build)); reflexivity.
    + intros env' Hrun.
      apply (proj2 (proj2 (NOEXCEPT_follows_toggle toggled_build) env' Hrun)).
      exists (ObjectLike ["1"]). reflexivity.
Defined.

(** C6: a build that has defined [NDEBUG], to any value [v], still has it
    defined to [v] after the header, which is accepted there as in any
    other build. *)
Theorem NDEBUG_prior_value_kept (env : gmap string Macro) (v : Macro) :
  env !! "NDEBUG" = Some v →
  (env !! "EXPECTED_VOID" = None → env !! "NOEXCEPT" = None →
   is_Some (include_macros_hpp env))
  ∧ ∀ env' : gmap string Macro,
      include_macros_hpp env = Some env' → env' !! "NDEBUG" = Some v.
Proof.
  intros Hv. split; [apply include_macros_hpp_total |].
  intros env' Hrun. exact (preprocess_keeps macros_hpp env env' "NDEBUG" v Hrun Hv).
Qed.

Lemma NDEBUG_prior_value_kept_witness :
  ndebug_build !! "NDEBUG" = Some (ObjectLike [])
  ∧ is_Some (include_macros_hpp ndebug_build)
  ∧ ∀ env', include_macros_hpp ndebug_build = Some env' →
      env' !! "NDEBUG" = Some (ObjectLike []).
Proof.
  split; [reflexivity |]. split.
  - apply (proj1 (NDEBUG_prior_value_kept ndebug_build (ObjectLike []) eq_refl));
      reflexivity.
  - exact (proj2 (NDEBUG_prior_value_kept ndebug_build (ObjectLike []) eq_refl)).
Defined.

(** C3, as the code has it: in a build that has not defined [NDEBUG] the
    header defines it, as [1]; with [NDEBUG] defined [assert] checks
    nothing, so the header's default is assertions off. *)
Theorem NDEBUG_default_disables_assertions (env : gmap string Macro) :
  env !! "NDEBUG" = None →
  (env !! "EXPECTED_VOID" = None → env !! "NOEXCEPT" = None →
   is_Some (include_macros_hpp env))
  ∧ ∀ env' : gmap string Macro,
      include_macros_hpp env = Some env' →
      env' !! "NDEBUG" = Some (ObjectLike ["1"])
      ∧ assertions_enabled env' = false.
Proof.
  intros Hv. split; [apply include_macros_hpp_total |].
  intros env' Hrun. apply include_macros_hpp_NDEBUG in Hrun.
  rewrite Hv in Hrun. split; [exact Hrun |].
  unfold assertions_enabled, is_defined.
  rewrite bool_decide_eq_true_2; [done |]. rewrite Hrun. eauto.
Qed.

Lemma NDEBUG_default_disables_assertions_witness :
  bare_build !! "NDEBUG" = None
  ∧ is_Some (include_macros_hpp bare_build)
  ∧ ∀ env', include_macros_hpp bare_build = Some env' →
      env' !! "NDEBUG" = Some (ObjectLike ["1"])
      ∧ assertions_enabled env' = false.
Proof.
  split; [reflexivity |]. split.
  - apply (proj1 (NDEBUG_default_disables_assertions bare_build eq_refl));
      reflexivity.
  - exact (proj2 (NDEBUG_default_disables_assertions bare_build eq_refl)).
Defined.

(** C3, as the claim has it, fails: in the build that defines nothing,
    [NDEBUG] is not defined before the header, the header is accepted, and
    assertions are off after it. *)
Lemma assertions_default_on_counterexample :
  bare_build !! "NDEBUG" = None
  ∧ assertions_enabled bare_build = true
  ∧ assertions_enabled <$> include_macros_hpp bare_build = Some false.
Proof. repeat split. Qed.

End PreprocessorFacts.

(* ===================================================================== *)
(** ** Facts about EXPECTED_VOID                                          *)
(* ===================================================================== *)

Module RuntimeFacts.
Import Runtime.

Lemma append_empty_r (s : string) : s +:+ EmptyString = s.
Proof.
  induction s as [| c s IHs]; [reflexivity |].
  change (String c (s +:+ EmptyString) = String c s). by rewrite IHs.
Qed.

(** With the format [{}], the one argument is printed as it is, braces
    and all. *)
Lemma std_format_braces (m : string) : std_format "{}" [m] = m.
Proof. change (m +:+ EmptyString = m). apply append_empty_r. Qed.

(** The three ways through the macro. *)
Lemma EXPECTED_VOID_cases (expr : M Expected) (p : Process) :
  EXPECTED_VOID expr p =
  match expr p with
  | Returned Value p' => Returned tt p'
  | Returned (Unexpected m) p' => Exiting 1 (with_store (write (m +:+ newline)) p')
  | Exiting status q => Exiting status q
  end.
Proof.
  unfold EXPECTED_VOID, mbind, M_bind, bind.
  destruct (expr p) as [[| m] p' | status q]; try reflexivity.
  cbn [has_value negb error]. unfold std_println.
  by rewrite std_format_braces.
Qed.

(** When the initializer of line 5 evaluates to a failure with message
    [m], the macro writes [m] and a newline to the standard output stream,
    after what the evaluation itself wrote and before anything else, and
    the process terminates with a status that is not zero; whatever
    statement follows the macro is not executed.  Where no cleanup is
    registered that text is the last the process writes. *)
Theorem EXPECTED_VOID_failure
    (expr : M Expected) (p p' : Process) (m : string) :
  expr p = Returned (Unexpected m) p' →
  ∃ (status : Z) (q : Process),
    EXPECTED_VOID expr p = Exiting status q
    ∧ status ≠ 0
    ∧ stdout (store q) = stdout (store p') +:+ m +:+ newline
    ∧ (∀ (B : Type) (next : unit → M B),
         (EXPECTED_VOID expr ≫= next) p = Exiting status q)
    ∧ ∃ ended : Ended,
        termination (EXPECTED_VOID expr p) = Some ended
        ∧ exit_status ended = status
        ∧ (registered p' = [] →
           stdout (final ended) = stdout (store p') +:+ m +:+ newline).
Proof.
  intros Hexpr.
  assert (Hrun : EXPECTED_VOID expr p
                 = Exiting 1 (with_store (write (m +:+ newline)) p')).
  { by rewrite EXPECTED_VOID_cases, Hexpr. }
  exists 1, (with_store (write (m +:+ newline)) p').
  split; [exact Hrun |]. split; [discriminate |]. split; [reflexivity |].
  split.
  - intros B next. unfold mbind, M_bind, bind. by rewrite Hrun.
  - eexists. rewrite Hrun. split; [reflexivity |]. split; [reflexivity |].
    intros Hnone. cbn. by rewrite Hnone.
Qed.

Lemma EXPECTED_VOID_failure_witness :
  disk_full fresh_process = Returned (Unexpected "disk full") fresh_process
  ∧ ∃ (status : Z) (q : Process),
      EXPECTED_VOID disk_full fresh_process = Exiting status q
      ∧ status ≠ 0
      ∧ stdout (store q) = stdout (store fresh_process) +:+ "disk full" +:+ newline
      ∧ (∀ (B : Type) (next : unit → M B),
           (EXPECTED_VOID disk_full ≫= next) fresh_process = Exiting status q)
      ∧ ∃ ended : Ended,
          termination (EXPECTED_VOID disk_full fresh_process) = Some ended
          ∧ exit_status ended = status
          ∧ (registered fresh_process = [] →
             stdout (final ended)
             = stdout (store fresh_process) +:+ "disk full" +:+ newline).
Proof.
  split; [reflexivity |].
  exact (EXPECTED_VOID_failure disk_full fresh_process fresh_process
           "disk full" eq_refl).
Defined.

(** C2: the macro evaluates its argument once.  Whatever the argument is,
    the macro ends the way one evaluation of the argument does, passing
    through nothing else than its own print and exit on a failure; and an
    operation that counts its evaluations leaves its counter exactly one
    higher, on the success path and on the failure path. *)
Theorem EXPECTED_VOID_evaluates_once :
  (∀ (expr : M Expected) (p : Process),
     match expr p with
     | Returned r p' =>
         globals (store (state_after (EXPECTED_VOID expr p))) = globals (store p')
         ∧ registered (state_after (EXPECTED_VOID expr p)) = registered p'
         ∧ automatic (state_after (EXPECTED_VOID expr p)) = automatic p'
     | Exiting status q => EXPECTED_VOID expr p = Exiting status q
     end)
  ∧ (∀ (counter : string) (p : Process),
       get_global counter
         (state_after (EXPECTED_VOID (counting_operation counter Value) p))
       = get_global counter p + 1)
  ∧ (∀ (counter m : string) (p : Process),
       get_global counter
         (state_after (EXPECTED_VOID (counting_operation counter (Unexpected m)) p))
       = get_global counter p + 1).
Proof.
  split; [| split].
  - intros expr p. rewrite EXPECTED_VOID_cases.
    by destruct (expr p) as [[| m] p' | status q].
  - intros counter p. rewrite EXPECTED_VOID_cases. cbn.
    unfold get_global. cbn. by rewrite lookup_insert_eq.
  - intros counter m p. rewrite EXPECTED_VOID_cases. cbn.
    unfold get_global. cbn. by rewrite lookup_insert_eq.
Qed.

(** When the initializer of line 5 evaluates to success, the macro
    completes in exactly the process state the evaluation left: nothing is
    written, no variable is changed, nothing is registered or destroyed,
    the process does not terminate, and the statement that follows runs
    next. *)
Theorem EXPECTED_VOID_success (expr : M Expected) (p p' : Process) :
  expr p = Returned Value p' →
  EXPECTED_VOID expr p = Returned tt p'
  ∧ stdout (store (state_after (EXPECTED_VOID expr p))) = stdout (store p')
  ∧ termination (EXPECTED_VOID expr p) = None
  ∧ ∀ (B : Type) (next : unit → M B),
      (EXPECTED_VOID expr ≫= next) p = next tt p'.
Proof.
  intros Hexpr.
  assert (Hrun : EXPECTED_VOID expr p = Returned tt p').
  { by rewrite EXPECTED_VOID_cases, Hexpr. }
  rewrite Hrun. repeat split.
  intros B next. unfold mbind, M_bind, bind. by rewrite Hrun.
Qed.

Lemma EXPECTED_VOID_success_witness :
  succeeds process_with_cleanups = Returned Value process_with_cleanups
  ∧ EXPECTED_VOID succeeds process_with_cleanups = Returned tt process_with_cleanups
  ∧ stdout (store (state_after (EXPECTED_VOID succeeds process_with_cleanups)))
    = stdout (store process_with_cleanups)
  ∧ termination (EXPECTED_VOID succeeds process_with_cleanups) = None
  ∧ ∀ (B : Type) (next : unit → M B),
      (EXPECTED_VOID succeeds ≫= next) process_with_cleanups
      = next tt process_with_cleanups.
Proof.
  split; [reflexivity |].
  exact (EXPECTED_VOID_success succeeds process_with_cleanups
           process_with_cleanups eq_refl).
Defined.

(** C10: whenever the operation fails, whatever its message, the status
    handed to [std::exit], which is the status the process ends with,
    is 1. *)
Theorem EXPECTED_VOID_exit_status_one
    (expr : M Expected) (p p' : Process) (m : string) :
  expr p = Returned (Unexpected m) p' →
  exit_status <$> termination (EXPECTED_VOID expr p) = Some 1.
Proof. intros Hexpr. by rewrite EXPECTED_VOID_cases, Hexpr. Qed.

Lemma EXPECTED_VOID_exit_status_one_witness :
  disk_full process_with_cleanups
  = Returned (Unexpected "disk full") process_with_cleanups
  ∧ exit_status <$> termination (EXPECTED_VOID disk_full process_with_cleanups)
    = Some 1.
Proof.
  split; [reflexivity |].
  exact (EXPECTED_VOID_exit_status_one disk_full process_with_cleanups
           process_with_cleanups "disk full" eq_refl).
Defined.

(** C4, as the code has it: the macro ends the process through
    [std::exit(1)].  No automatic object is destroyed (the stack is not
    unwound), but every function registered with [std::atexit] and every
    destructor of a static object is called, the most recently registered
    first, on the store the macro's print has left. *)
Theorem EXPECTED_VOID_exit_runs_registered_cleanups
    (expr : M Expected) (p p' : Process) (m : string) :
  expr p = Returned (Unexpected m) p' →
  termination (EXPECTED_VOID expr p) =
  Some {| exit_status := 1;
          final := run_cleanups (registered p') (write (m +:+ newline) (store p'));
          invoked := cleanup_name <$> registered p';
          undestroyed := cleanup_name <$> automatic p' |}.
Proof. intros Hexpr. by rewrite EXPECTED_VOID_cases, Hexpr. Qed.

Lemma EXPECTED_VOID_exit_runs_registered_cleanups_witness :
  disk_full process_with_cleanups
  = Returned (Unexpected "disk full") process_with_cleanups
  ∧ termination (EXPECTED_VOID disk_full process_with_cleanups) =
    Some {| exit_status := 1;
            final := run_cleanups (registered process_with_cleanups)
                       (write ("disk full" +:+ newline) (store process_with_cleanups));
            invoked := cleanup_name <$> registered process_with_cleanups;
            undestroyed := cleanup_name <$> automatic process_with_cleanups |}.
Proof.
  split; [reflexivity |].
  exact (EXPECTED_VOID_exit_runs_registered_cleanups disk_full
           process_with_cleanups process_with_cleanups "disk full" eq_refl).
Defined.

(** C4, as the claim has it, fails: in a process that has registered
    [farewell], the failing operation makes the macro end the process with
    [farewell] called, and its text written after the error message; only
    the automatic object [guard] is left undestroyed. *)
Lemma abrupt_termination_counterexample :
  disk_full process_with_cleanups
  = Returned (Unexpected "disk full") process_with_cleanups
  ∧ invoked <$> termination (EXPECTED_VOID disk_full process_with_cleanups)
    = Some ["farewell"]
  ∧ (stdout ∘ final) <$> termination (EXPECTED_VOID disk_full process_with_cleanups)
    = Some ("disk full" +:+ newline +:+ "bye")
  ∧ undestroyed <$> termination (EXPECTED_VOID disk_full process_with_cleanups)
    = Some ["guard"].
Proof. repeat split. Qed.

End RuntimeFacts.

(* ===================================================================== *)
(** ** Values and conversions of the integer aliases                      *)
(* ===================================================================== *)

Module AliasConversions.
Import PrimitiveTypes PrimitiveTypesFacts.

Lemma pow2_double (w : Z) : 0 < w → 2 ^ w = 2 * 2 ^ (w - 1) ∧ 0 < 2 ^ (w - 1).
Proof.
  intros Hw. split.
  - replace w with (Z.succ (w - 1)) at 1 by lia. apply Z.pow_succ_r; lia.
  - apply Z.pow_pos_nonneg; lia.
Qed.

(** Every alias that has an integer format has a positive width. *)
Lemma alias_format_bits_pos (dm : DataModel) (a : Alias) (f : IntFormat) :
  alias_format dm a = Some f → 0 < bits f.
Proof. destruct dm, a; intros [= <-]; reflexivity. Qed.

(** A conversion moves a value by a multiple of [2 ^ bits f]. *)
Lemma convert_congruent (f : IntFormat) (v : Z) :
  0 < bits f → ∃ t : Z, convert f v = v + t * 2 ^ bits f.
Proof.
  intros Hw. unfold convert, decode, encode.
  destruct (pow2_double (bits f) Hw) as [Hpow Hpos].
  rewrite Z.mod_mod by lia.
  pose proof (Z.div_mod v (2 ^ bits f) ltac:(lia)) as Hdm.
  destruct (is_signed f && Z.testbit (v mod 2 ^ bits f) (bits f - 1)).
  - exists (- (v / 2 ^ bits f) - 1). lia.
  - exists (- (v / 2 ^ bits f)). lia.
Qed.

Lemma representable_range (f : IntFormat) (v : Z) :
  representable f v = true ↔ min_value f ≤ v ≤ max_value f.
Proof. unfold representable. rewrite andb_true_iff, !Z.leb_le. tauto. Qed.

(** The values of a format are [2 ^ bits f] consecutive integers. *)
Lemma range_span (f : IntFormat) :
  0 < bits f → max_value f - min_value f = 2 ^ bits f - 1.
Proof.
  intros Hw. destruct (pow2_double (bits f) Hw) as [Hpow Hpos].
  unfold max_value, min_value. destruct (is_signed f); lia.
Qed.

Lemma convert_representable (f : IntFormat) (v : Z) :
  0 < bits f → representable f v = true → convert f v = v.
Proof.
  intros Hw Hv%representable_range.
  destruct (convert_congruent f v Hw) as [t Ht].
  pose proof (decode_range f (encode f v) Hw) as Hrange.
  fold (convert f v) in Hrange.
  pose proof (range_span f Hw) as Hspan.
  destruct (pow2_double (bits f) Hw) as [Hpow Hpos].
  assert (t = 0) by nia. subst t. lia.
Qed.

(** The same storage read as signed and as unsigned. *)
Lemma decode_signed_unsigned (w pattern : Z) :
  0 < w →
  decode (signed_of w) pattern =
    if decode (unsigned_of w) pattern <? 2 ^ (w - 1)
    then decode (unsigned_of w) pattern
    else decode (unsigned_of w) pattern - 2 ^ w.
Proof.
  intros Hw. unfold decode. cbn [bits is_signed signed_of unsigned_of andb].
  destruct (pow2_double w Hw) as [Hpow Hpos].
  assert (Hlow : 0 ≤ pattern mod 2 ^ w < 2 ^ w) by (apply Z.mod_pos_bound; lia).
  destruct (Z.testbit (pattern mod 2 ^ w) (w - 1)) eqn:Hbit.
  - apply top_bit_threshold in Hbit; [| lia | lia].
    destruct (Z.ltb_spec (pattern mod 2 ^ w) (2 ^ (w - 1))); [lia | reflexivity].
  - destruct (Z.ltb_spec (pattern mod 2 ^ w) (2 ^ (w - 1))) as [| Hge]; [reflexivity |].
    apply top_bit_threshold in Hge; [congruence | lia | lia].
Qed.

Lemma widens_sound (dm : DataModel) (a b : Alias) :
  widens dm a b = true →
  ∃ fa fb : IntFormat,
    alias_format dm a = Some fa ∧ alias_format dm b = Some fb
    ∧ ∀ v : Z, representable fa v = true → representable fb v = true.
Proof.
  unfold widens.
  destruct (alias_format dm a) as [fa |]; [| discriminate].
  destruct (alias_format dm b) as [fb |]; [| discriminate].
  rewrite andb_true_iff, !Z.leb_le. intros [Hmin Hmax].
  exists fa, fb. repeat split.
  intros v. rewrite !representable_range. lia.
Qed.

(** A value converted to an integer alias lands in the alias's range, a
    multiple of [2 ^ bits] away from where it was; it comes back unchanged
    exactly when it was in the range. *)
Theorem integer_alias_conversion
    (dm : DataModel) (a : Alias) (f : IntFormat) (v : Z) :
  alias_format dm a = Some f →
  representable f (convert f v) = true
  ∧ (convert f v - v) mod 2 ^ bits f = 0
  ∧ (convert f v = v ↔ representable f v = true).
Proof.
  intros Hw%alias_format_bits_pos.
  assert (Hin : representable f (convert f v) = true).
  { apply representable_range. apply decode_range, Hw. }
  split; [exact Hin |]. split.
  - destruct (convert_congruent f v Hw) as [t ->].
    replace (v + t * 2 ^ bits f - v) with (t * 2 ^ bits f) by lia.
    apply Z.mod_mul. destruct (pow2_double (bits f) Hw). lia.
  - split; [intros <-; exact Hin | by apply convert_representable].
Qed.

Lemma integer_alias_conversion_witness :
  alias_format LP64 u8 = Some (unsigned_of 8)
  ∧ representable (unsigned_of 8) (convert (unsigned_of 8) 300) = true
  ∧ (convert (unsigned_of 8) 300 - 300) mod 2 ^ bits (unsigned_of 8) = 0
  ∧ (convert (unsigned_of 8) 300 = 300 ↔ representable (unsigned_of 8) 300 = true).
Proof.
  split; [reflexivity |].
  exact (integer_alias_conversion LP64 u8 (unsigned_of 8) 300 eq_refl).
Defined.

(** Each unsigned alias and the signed alias declared beside it have the
    same width [w], and the same storage read through the two gives the
    same value while the top bit is clear and values [2 ^ w] apart once it
    is set. *)
Theorem signed_unsigned_same_storage (dm : DataModel) (ua sa : Alias) :
  (ua, sa) ∈ signedness_pairs →
  ∃ w : Z,
    alias_format dm ua = Some (unsigned_of w)
    ∧ alias_format dm sa = Some (signed_of w)
    ∧ ∀ pattern : Z,
        decode (signed_of w) pattern =
          if decode (unsigned_of w) pattern <? 2 ^ (w - 1)
          then decode (unsigned_of w) pattern
          else decode (unsigned_of w) pattern - 2 ^ w.
Proof.
  intros Hin.
  assert (Hfmt : ∃ w : Z, 0 < w
            ∧ alias_format dm ua = Some (unsigned_of w)
            ∧ alias_format dm sa = Some (signed_of w)).
  { unfold signedness_pairs in Hin. rewrite !elem_of_cons in Hin.
    destruct Hin as [[= -> ->] | [[= -> ->] | [[= -> ->] | [[= -> ->] | [[= -> ->] | Hin]]]]];
      [exists 8 | exists 16 | exists 32 | exists 64
      | destruct dm; [exists 32 | exists 64 | exists 64]
      | by apply elem_of_nil in Hin];
      repeat split. }
  destruct Hfmt as (w & Hw & Hu & Hs).
  exists w. split; [exact Hu |]. split; [exact Hs |].
  intros pattern. by apply decode_signed_unsigned.
Qed.

Lemma signed_unsigned_same_storage_witness :
  (usize, ssize) ∈ signedness_pairs
  ∧ ∃ w : Z,
      alias_format ILP32 usize = Some (unsigned_of w)
      ∧ alias_format ILP32 ssize = Some (signed_of w)
      ∧ ∀ pattern : Z,
          decode (signed_of w) pattern =
            if decode (unsigned_of w) pattern <? 2 ^ (w - 1)
            then decode (unsigned_of w) pattern
            else decode (unsigned_of w) pattern - 2 ^ w.
Proof.
  assert (Hin : (usize, ssize) ∈ signedness_pairs).
  { unfold signedness_pairs. rewrite !elem_of_cons. tauto. }
  split; [exact Hin |].
  exact (signed_unsigned_same_storage ILP32 usize ssize Hin).
Defined.

(** Along each widening of the header's aliases nothing is lost: whatever
    an object of the narrower alias holds, converting it to the wider alias
    gives the same value, on every data model.  The other way round it is
    not so: [u64] does not widen to [i64], nor [usize] to [ssize], and
    [u64] fits [usize] only where [usize] has 64 bits. *)
Theorem widening_is_lossless (dm : DataModel) :
  (∀ (a b : Alias), (a, b) ∈ widening_pairs →
     ∃ fa fb : IntFormat,
       alias_format dm a = Some fa ∧ alias_format dm b = Some fb
       ∧ ∀ pattern : Z, convert fb (decode fa pattern) = decode fa pattern)
  ∧ widens dm u64 i64 = false
  ∧ widens dm usize ssize = false
  ∧ (widens dm u64 usize = true ↔ dm ≠ ILP32).
Proof.
  split; [| split; [| split]].
  - intros a b Hin.
    assert (Hw : widens dm a b = true).
    { unfold widening_pairs in Hin. rewrite !elem_of_cons in Hin.
      repeat (destruct Hin as [[= -> ->] | Hin]; [by destruct dm |]).
      by apply elem_of_nil in Hin. }
    destruct (widens_sound dm a b Hw) as (fa & fb & Ha & Hb & Hfit).
    exists fa, fb. split; [exact Ha |]. split; [exact Hb |].
    intros pattern. apply convert_representable.
    + by eapply alias_format_bits_pos.
    + apply Hfit, representable_range, decode_range.
      by eapply alias_format_bits_pos.
  - by destruct dm.
  - by destruct dm.
  - destruct dm; split; try done.
Qed.

End AliasConversions.

(* ===================================================================== *)
(** ** macros.hpp as a whole: what including it does to a build           *)
(* ===================================================================== *)

Module HeaderInclusion.
Import Preprocessor PreprocessorFacts.

(** The macro the header defines for [NOEXCEPT] in the build [env]. *)
#[local] Abbreviation NOEXCEPT_in env :=
  (ObjectLike (if is_defined env "NOEXCEPT_ENABLED" then [] else ["noexcept"])).

#[local] Abbreviation EXPECTED_VOID_macro := (FunctionLike ["expr"] EXPECTED_VOID_body).

(** [#define] is accepted exactly for a new name and for a repetition. *)
Lemma define_is_Some name m env :
  is_Some (define name m env) ↔ env !! name = None ∨ env !! name = Some m.
Proof.
  unfold define. destruct (env !! name) as [m' |].
  - destruct (decide (m' = m)) as [-> |].
    + split; eauto.
    + split; [by intros [? ?] | intros [? | [= ?]]; done].
  - split; eauto.
Qed.


Lemma is_defined_insert_ne env name k m :
  name ≠ k → is_defined (<[name := m]> env) k = is_defined env k.
Proof. intros Hne. unfold is_defined. by rewrite lookup_insert_ne. Qed.

(** Running the header, step by step, in the other direction. *)
Lemma include_macros_hpp_run env env1 env2 :
  define "EXPECTED_VOID" EXPECTED_VOID_macro env = Some env1 →
  define "NOEXCEPT" (NOEXCEPT_in env) env1 = Some env2 →
  include_macros_hpp env =
    match env2 !! "NDEBUG" with
    | None => define "NDEBUG" (ObjectLike ["1"]) env2
    | Some _ => Some env2
    end.
Proof.
  intros H1 H2.
  unfold include_macros_hpp, macros_hpp. cbn [preprocess process].
  rewrite H1.
  assert (Htoggle : env1 !! "NOEXCEPT_ENABLED" = env !! "NOEXCEPT_ENABLED").
  { apply define_Some in H1 as ->. by rewrite lookup_insert_ne. }
  rewrite Htoggle. unfold is_defined in H2.
  destruct (env !! "NOEXCEPT_ENABLED") as [toggle |] eqn:Hen.
  - rewrite bool_decide_eq_true_2 in H2 by eauto. rewrite H2.
    destruct (env2 !! "NDEBUG"); [done |].
    by destruct (define "NDEBUG" _ env2).
  - rewrite bool_decide_eq_false_2 in H2 by (intros [? ?]; discriminate).
    rewrite H2.
    destruct (env2 !! "NDEBUG"); [done |].
    by destruct (define "NDEBUG" _ env2).
Qed.

(** The table after the header is the table before it with three
    definitions put in. *)
Lemma include_macros_hpp_closed_form env env' :
  include_macros_hpp env = Some env' →
  env' = <["NDEBUG" := default (ObjectLike ["1"]) (env !! "NDEBUG")]>
           (<["NOEXCEPT" := NOEXCEPT_in env]>
              (<["EXPECTED_VOID" := EXPECTED_VOID_macro]> env)).
Proof.
  intros (env1 & env2 & H1 & H2 & H3)%include_macros_hpp_Some.
  apply define_Some in H1 as ->. apply define_Some in H2 as ->.
  rewrite !lookup_insert_ne in H3 by done.
  destruct (env !! "NDEBUG") as [v |] eqn:Hnd; cbn [default].
  - injection H3 as <-. symmetry. apply insert_id.
    by rewrite !lookup_insert_ne.
  - by apply define_Some in H3.
Qed.

(** The header is accepted exactly in the builds where [EXPECTED_VOID] and
    [NOEXCEPT] are either not defined yet or already defined the way the
    header defines them; in every other build it is ill-formed.  [NDEBUG],
    which the header guards, can never make it fail. *)
Theorem header_accepted_iff (env : gmap string Macro) :
  is_Some (include_macros_hpp env)
  ↔ (env !! "EXPECTED_VOID" = None
     ∨ env !! "EXPECTED_VOID" = Some EXPECTED_VOID_macro)
    ∧ (env !! "NOEXCEPT" = None
       ∨ env !! "NOEXCEPT" = Some (NOEXCEPT_in env)).
Proof.
  split.
  - intros [env' (env1 & env2 & H1 & H2 & _)%include_macros_hpp_Some].
    split.
    + apply define_is_Some. eauto.
    + assert (Hsame : env1 !! "NOEXCEPT" = env !! "NOEXCEPT").
      { apply define_Some in H1 as ->. by rewrite lookup_insert_ne. }
      rewrite <- Hsame. apply define_is_Some. eauto.
  - intros [Hev Hne].
    apply define_is_Some in Hev as [env1 H1].
    assert (Hsame : env1 !! "NOEXCEPT" = env !! "NOEXCEPT").
    { apply define_Some in H1 as ->. by rewrite lookup_insert_ne. }
    rewrite <- Hsame in Hne.
    apply define_is_Some in Hne as [env2 H2].
    rewrite (include_macros_hpp_run env env1 env2 H1 H2).
    destruct (env2 !! "NDEBUG") eqn:Hnd; [eauto |].
    apply define_is_Some. by left.
Qed.

Lemma header_accepted_iff_witness :
  is_Some (include_macros_hpp bare_build)
  ∧ include_macros_hpp clashing_build = None.
Proof.
  split.
  - apply (proj2 (header_accepted_iff bare_build)). split; by left.
  - destruct (include_macros_hpp clashing_build) as [env' |] eqn:Hrun; [| done].
    destruct (proj1 (header_accepted_iff clashing_build) (ex_intro _ env' Hrun))
      as [_ [Hnone | Hsame]]; discriminate.
Defined.

(** Names the header does not define keep their definition, or stay
    undefined. *)
Lemma include_macros_hpp_frame env env' name :
  include_macros_hpp env = Some env' →
  name ∉ ["EXPECTED_VOID"; "NOEXCEPT"; "NDEBUG"] →
  env' !! name = env !! name.
Proof.
  intros ->%include_macros_hpp_closed_form Hname.
  rewrite !not_elem_of_cons in Hname. destruct Hname as (? & ? & ? & _).
  by rewrite !lookup_insert_ne.
Qed.

(** The header defines [EXPECTED_VOID], [NOEXCEPT] and [NDEBUG] and
    nothing else: every other macro name, [NOEXCEPT_ENABLED] among them,
    is defined after the header exactly as it was before, and the defined
    names are the old ones and those three. *)
Theorem header_touches_three_names (env env' : gmap string Macro) :
  include_macros_hpp env = Some env' →
  (∀ name : string,
     name ∉ ["EXPECTED_VOID"; "NOEXCEPT"; "NDEBUG"] →
     env' !! name = env !! name)
  ∧ dom env' = dom env ∪ {[ "EXPECTED_VOID"; "NOEXCEPT"; "NDEBUG" ]}.
Proof.
  intros Hrun. split.
  - intros name. by apply include_macros_hpp_frame.
  - apply include_macros_hpp_closed_form in Hrun as ->.
    rewrite !dom_insert_L. apply set_eq. intros name.
    rewrite !elem_of_union, !elem_of_singleton. tauto.
Qed.

Lemma header_touches_three_names_witness :
  include_macros_hpp toggled_build
  = Some (<["NDEBUG" := ObjectLike ["1"]]>
            (<["NOEXCEPT" := ObjectLike []]>
               (<["EXPECTED_VOID" := EXPECTED_VOID_macro]> toggled_build)))
  ∧ (∀ name : string,
       name ∉ ["EXPECTED_VOID"; "NOEXCEPT"; "NDEBUG"] →
       <["NDEBUG" := ObjectLike ["1"]]>
         (<["NOEXCEPT" := ObjectLike []]>
            (<["EXPECTED_VOID" := EXPECTED_VOID_macro]> toggled_build)) !! name
       = toggled_build !! name)
  ∧ dom (<["NDEBUG" := ObjectLike ["1"]]>
           (<["NOEXCEPT" := ObjectLike []]>
              (<["EXPECTED_VOID" := EXPECTED_VOID_macro]> toggled_build)))
    = dom toggled_build ∪ {[ "EXPECTED_VOID"; "NOEXCEPT"; "NDEBUG" ]}.
Proof.
  split; [reflexivity |].
  exact (header_touches_three_names toggled_build _ eq_refl).
Defined.



End HeaderInclusion.

(* ===================================================================== *)
(** ** EXPECTED_VOID at a call site, alone and in sequences               *)
(* ===================================================================== *)

Module CallSites.
Import Runtime RuntimeFacts.

(** For an argument that does not name [expected], the statement is the
    macro's body run on the operation itself. *)
Lemma EXPECTED_VOID_statement_closed (local : Expected) (op : M Expected) :
  EXPECTED_VOID_statement local (closed op) = EXPECTED_VOID op.
Proof. reflexivity. Qed.

(** For the argument [expected] the statement goes by what the macro's
    own local reads as; the caller's object is not an input of it. *)
Lemma EXPECTED_VOID_statement_the_name (local : Expected) (p : Process) :
  EXPECTED_VOID_statement local the_name_expected p =
  match local with
  | Value => Returned tt p
  | Unexpected m => Exiting 1 (with_store (write (m +:+ newline)) p)
  end.
Proof.
  unfold EXPECTED_VOID_statement. rewrite EXPECTED_VOID_cases.
  by destruct local.
Qed.

(** C1, at the call [EXPECTED_VOID(expected)]: the caller's object
    [expected] holds the failure [disk full], so the operation passed
    fails with that message; but the initializer of line 5 reads the
    macro's own local.  Where that storage reads as zeros, the process
    writes a newline alone and ends with status 1; where it reads as a
    success, nothing is written and control goes on.  In no case does the
    caller's message decide what is written. *)
Theorem EXPECTED_VOID_expected_loses_the_message :
  at_call_site (Unexpected "disk full") the_name_expected fresh_process
  = Returned (Unexpected "disk full") fresh_process
  ∧ EXPECTED_VOID_statement zeroed the_name_expected fresh_process
    = Exiting 1 (with_store (write newline) fresh_process)
  ∧ stdout (store (state_after
      (EXPECTED_VOID_statement zeroed the_name_expected fresh_process)))
    = newline
  ∧ stdout (store (state_after
      (EXPECTED_VOID_statement zeroed the_name_expected fresh_process)))
    ≠ "disk full" +:+ newline
  ∧ EXPECTED_VOID_statement Value the_name_expected fresh_process
    = Returned tt fresh_process
  ∧ ∀ (local : Expected) (p : Process),
      EXPECTED_VOID_statement local the_name_expected p
      = EXPECTED_VOID (mret local) p.
Proof.
  split; [reflexivity |]. split; [reflexivity |]. split; [reflexivity |].
  split; [discriminate |]. split; reflexivity.
Qed.

(** C7, at the call [EXPECTED_VOID(expected)]: the caller's object
    [expected] holds a success, so the operation passed succeeds; but where
    the storage of the macro's own local reads as zeros the statement
    writes a newline and ends the process with status 1, registered
    cleanups called, and the statement that follows is not run. *)
Theorem EXPECTED_VOID_expected_ends_a_success :
  at_call_site Value the_name_expected process_with_cleanups
  = Returned Value process_with_cleanups
  ∧ EXPECTED_VOID_statement zeroed the_name_expected process_with_cleanups
    = Exiting 1 (with_store (write newline) process_with_cleanups)
  ∧ termination
      (EXPECTED_VOID_statement zeroed the_name_expected process_with_cleanups)
    = Some {| exit_status := 1;
              final := {| globals := ∅; stdout := newline +:+ "bye" |};
              invoked := ["farewell"];
              undestroyed := ["guard"] |}
  ∧ ∀ (B : Type) (next : unit → M B),
      (EXPECTED_VOID_statement zeroed the_name_expected ≫= next)
        process_with_cleanups
      = Exiting 1 (with_store (write newline) process_with_cleanups).
Proof. repeat split. Qed.

Lemma checked_sequence_cons (op : M Expected) (ops : list (M Expected)) (p : Process) :
  checked_sequence (op :: ops) p =
  match EXPECTED_VOID op p with
  | Returned _ p' => checked_sequence ops p'
  | Exiting status q => Exiting status q
  end.
Proof. reflexivity. Qed.

Lemma evaluate_all_cons (op : M Expected) (ops : list (M Expected)) (p : Process) :
  evaluate_all (op :: ops) p =
  match op p with
  | Returned r p' =>
      match evaluate_all ops p' with
      | Returned rs p'' => Returned (r :: rs) p''
      | Exiting status q => Exiting status q
      end
  | Exiting status q => Exiting status q
  end.
Proof.
  cbn [evaluate_all]. unfold mbind, M_bind, bind.
  destruct (op p) as [r p' | status q]; [| reflexivity].
  by destruct (evaluate_all ops p').
Qed.

(** Two runs of checked statements, one after the other. *)
Lemma checked_sequence_app (ops1 ops2 : list (M Expected)) (p : Process) :
  checked_sequence (ops1 ++ ops2) p =
  match checked_sequence ops1 p with
  | Returned _ p' => checked_sequence ops2 p'
  | Exiting status q => Exiting status q
  end.
Proof.
  revert p. induction ops1 as [| op ops1 IH]; intros p; [reflexivity |].
  cbn [app]. rewrite !checked_sequence_cons.
  destruct (EXPECTED_VOID op p) as [u p' | status q]; [apply IH | reflexivity].
Qed.

Lemma checked_sequence_first_failure
    (ops1 ops2 : list (M Expected)) (op : M Expected)
    (p p1 p2 : Process) (m : string) :
  checked_sequence ops1 p = Returned tt p1 →
  op p1 = Returned (Unexpected m) p2 →
  checked_sequence (ops1 ++ op :: ops2) p
  = Exiting 1 (with_store (write (m +:+ newline)) p2).
Proof.
  intros Hbefore Hop.
  rewrite checked_sequence_app, Hbefore, checked_sequence_cons.
  by rewrite EXPECTED_VOID_cases, Hop.
Qed.

Lemma checked_sequence_returns
    (ops : list (M Expected)) (p p' : Process) :
  checked_sequence ops p = Returned tt p'
  ↔ evaluate_all ops p = Returned (replicate (length ops) Value) p'.
Proof.
  revert p. induction ops as [| op ops IH]; intros p.
  - cbn. split; intros [= <-]; reflexivity.
  - rewrite checked_sequence_cons, evaluate_all_cons, EXPECTED_VOID_cases.
    cbn [length replicate].
    destruct (op p) as [[| m] p1 | status q].
    + rewrite IH. destruct (evaluate_all ops p1) as [rs p2 | status q].
      * split; [intros [= -> ->]; reflexivity | intros [= -> ->]; reflexivity].
      * split; discriminate.
    + split; [discriminate |].
      destruct (evaluate_all ops p1); discriminate.
    + split; discriminate.
Qed.


Lemma initializers_app (calls1 calls2 : list (Expected * Argument)) :
  initializers (calls1 ++ calls2) = initializers calls1 ++ initializers calls2.
Proof. apply fmap_app. Qed.

(** In consecutive statements [EXPECTED_VOID(arg1); ...], as soon as the
    initializer of one of them, evaluated where the macro puts it, yields
    a failure, the process ends: status 1, that failure's message and a
    newline written last, and the statements that follow never evaluated,
    so that the end does not depend on them.  For an argument that does
    not name [expected] the initializer is the caller's operation and the
    message its own; for the argument [expected] it is what the macro's
    local reads as. *)
Theorem checked_statements_stop_at_first_failure
    (calls1 calls2 : list (Expected * Argument))
    (local : Expected) (arg : Argument) (p p1 p2 : Process) (m : string) :
  checked_statements calls1 p = Returned tt p1 →
  arg local p1 = Returned (Unexpected m) p2 →
  checked_statements (calls1 ++ (local, arg) :: calls2) p
  = Exiting 1 (with_store (write (m +:+ newline)) p2)
  ∧ ∀ op : M Expected,
      arg = closed op → op p1 = Returned (Unexpected m) p2.
Proof.
  intros Hbefore Hop. split.
  - unfold checked_statements in *. rewrite initializers_app.
    exact (checked_sequence_first_failure (initializers calls1)
             (initializers calls2) (arg local) p p1 p2 m Hbefore Hop).
  - by intros op ->.
Qed.

Lemma checked_statements_stop_at_first_failure_witness :
  checked_statements [(zeroed, closed (chatty "mounted " Value))] fresh_process
  = Returned tt (with_store (write "mounted ") fresh_process)
  ∧ closed disk_full zeroed (with_store (write "mounted ") fresh_process)
    = Returned (Unexpected "disk full") (with_store (write "mounted ") fresh_process)
  ∧ checked_statements
      ([(zeroed, closed (chatty "mounted " Value))]
       ++ (zeroed, closed disk_full)
          :: [(zeroed, closed (chatty "never written" Value))])
      fresh_process
    = Exiting 1 (with_store (write ("disk full" +:+ newline))
                   (with_store (write "mounted ") fresh_process))
  ∧ ∀ op : M Expected,
      closed disk_full = closed op →
      op (with_store (write "mounted ") fresh_process)
      = Returned (Unexpected "disk full") (with_store (write "mounted ") fresh_process).
Proof.
  split; [reflexivity |]. split; [reflexivity |].
  exact (checked_statements_stop_at_first_failure
           [(zeroed, closed (chatty "mounted " Value))]
           [(zeroed, closed (chatty "never written" Value))]
           zeroed (closed disk_full)
           fresh_process _ _ "disk full" eq_refl eq_refl).
Defined.

(** A run of consecutive [EXPECTED_VOID] statements completes exactly when
    every initializer, evaluated in order where the macro puts it, yields
    success, and then in the very state those evaluations alone lead to:
    the macros add nothing.  When no argument names [expected], the
    initializers are the caller's operations. *)
Theorem checked_statements_return_iff
    (calls : list (Expected * Argument)) (p p' : Process) :
  (checked_statements calls p = Returned tt p'
   ↔ evaluate_all (initializers calls) p
     = Returned (replicate (length calls) Value) p')
  ∧ ∀ (locals : list Expected) (ops : list (M Expected)),
      length locals = length ops →
      initializers (zip locals (closed <$> ops)) = ops.
Proof.
  split.
  - unfold checked_statements. rewrite checked_sequence_returns.
    unfold initializers. by rewrite length_fmap.
  - intros locals. induction locals as [| local locals IH];
      intros [| op ops] Hlen; try done.
    cbn. f_equal. apply IH. by injection Hlen.
Qed.



End CallSites.
